(** * Verification of src/src/MonoalphabeticCipher.js and the SKU helpers of src/index.js

    JavaScript strings are sequences of UTF-16 code units; a string is
    modelled as [list Z] (one code unit per element, as [split('')] and
    [charCodeAt] see it).  JavaScript numbers are IEEE-754 doubles: the
    operations whose results are not exactly representable (the LCG product,
    the division and the multiplication of the Fisher-Yates draw) are
    modelled with an explicit round-to-nearest-even at 53 significant bits. *)

From Stdlib Require Import ZArith Lia Ascii String.
From stdpp Require Import base list gmap.

Local Open Scope Z_scope.

(** ** JavaScript numeric primitives *)
Module JS.

(** ECMAScript ToInt32 of an integral number: reduce modulo 2^32 and read
    the result as a signed 32-bit integer. *)
Definition toInt32 (x : Z) : Z :=
  let r := x mod 2 ^ 32 in
  if 2 ^ 31 <=? r then r - 2 ^ 32 else r.

(** A non-negative double in the normal range, as [mant * 2 ^ expo]. *)
Record dbl := Dbl { mant : Z; expo : Z }.

(** The exact value of a double as a fraction [num / den] with [den > 0]. *)
Definition num (x : dbl) : Z :=
  if 0 <=? expo x then mant x * 2 ^ expo x else mant x.
Definition den (x : dbl) : Z :=
  if 0 <=? expo x then 1 else 2 ^ (- expo x).

(** IEEE-754 binary64 round-to-nearest-even of the non-negative rational
    [n / d] ([d > 0]); the values of this program stay far from the
    subnormal and overflow ranges.  With [a = log2 n] and [b] chosen so
    that the quotient [nn / dd] of [nn = n * 2 ^ b] by [dd = d * 2 ^ a] lies
    in [[2^52, 2^53)], [n / d = (nn / dd) * 2 ^ (a - b)]; the 53-bit
    significand is [nn / dd] rounded to an integer, ties to even. *)
Definition round_q (n d : Z) : dbl :=
  if n <=? 0 then Dbl 0 0 else
  let a := Z.log2 n in
  let b0 := 52 + Z.log2 d in
  let b := if n * 2 ^ b0 <? 2 ^ 52 * (d * 2 ^ a) then b0 + 1 else b0 in
  let nn := n * 2 ^ b in
  let dd := d * 2 ^ a in
  let q := nn / dd in
  let r := nn mod dd in
  let q' := if 2 * r <? dd then q
            else if dd <? 2 * r then q + 1
            else if Z.even q then q else q + 1 in
  Dbl q' (a - b).

(** Number literals and integral values below 2^53 are exact doubles. *)
Definition of_int (z : Z) : dbl := round_q z 1.

Definition mul (x y : dbl) : dbl := round_q (num x * num y) (den x * den y).
Definition add (x y : dbl) : dbl :=
  round_q (num x * den y + num y * den x) (den x * den y).
Definition div (x y : dbl) : dbl := round_q (num x * den y) (den x * num y).

(** [Math.floor] of a non-negative double (an integer result). *)
Definition floor (x : dbl) : Z := num x / den x.

End JS.

(** ** Key hashing: [hashKey] *)

(** One iteration of
    [hash = ((hash << 5) - hash + key.charCodeAt(i)) & 0xffffffff].
    [<<] works on ToInt32 of its operand and wraps to 32 bits; the
    subtraction and the addition are exact (|values| < 2^34); [&] applies
    ToInt32 to both operands. *)
Definition hash_step (hash c : Z) : Z :=
  Z.land (JS.toInt32 (JS.toInt32 (Z.shiftl (JS.toInt32 hash) 5) - hash + c))
         (JS.toInt32 0xffffffff).

(** [hashKey(key)]: fold the code units, then [Math.abs]. *)
Definition hashKey (key : list Z) : Z :=
  Z.abs (fold_left hash_step key 0).

(** The accumulation as the specification words it, on exact integers:
    [hash = ((hash << 5) - hash + charCode) mod 2^32]. *)
Definition spec_hash_acc (key : list Z) : Z :=
  fold_left (fun hash c => (Z.shiftl hash 5 - hash + c) mod 2 ^ 32) key 0.

(** ** Seeded generator: [seededRandom] *)

(** One call of the closure: [state = (state * 1103515245 + 12345) & 0x7fffffff]
    evaluated on doubles (the product and the sum are rounded), then the
    bitwise and on ToInt32 of the (integral) result. *)
Definition lcg_next (state : Z) : Z :=
  Z.land (JS.toInt32 (JS.floor (JS.add (JS.mul (JS.of_int state) (JS.of_int 1103515245))
                                       (JS.of_int 12345))))
         (JS.toInt32 0x7fffffff).

(** The integral value of the double [state * 1103515245 + 12345], before
    the bitwise and. *)
Definition lcg_float (state : Z) : Z :=
  JS.floor (JS.add (JS.mul (JS.of_int state) (JS.of_int 1103515245)) (JS.of_int 12345)).

(** The double returned by the closure: [state / 0x7fffffff]. *)
Definition rng_value (state : Z) : JS.dbl :=
  JS.div (JS.of_int state) (JS.of_int 0x7fffffff).

(** The Fisher-Yates draw [Math.floor(rng() * (i + 1))], given the state the
    call of [rng()] produced. *)
Definition draw (state : Z) (i : nat) : Z :=
  JS.floor (JS.mul (rng_value state) (JS.of_int (Z.of_nat i + 1))).

(** ** Strings as code units *)

(** The code units of an ASCII string literal. *)
Definition str (s : string) : list Z :=
  map (fun a => Z.of_nat (nat_of_ascii a)) (list_ascii_of_string s).

(** The character set of [generateTable] (62 characters). *)
Definition chars : list Z :=
  str "abcdefghijklmnopqrstuvwxyzABCDEFGHIJKLMNOPQRSTUVWXYZ0123456789".

(** ** JavaScript arrays: [str.split('')], element access, [join('')] *)

(** An array slot holds a one-code-unit string, or is [undefined] ([None]). *)
Abbreviation js_array := (list (option Z)).

(** [arr[k]]: [undefined] past the end. *)
Definition js_get (arr : js_array) (k : nat) : option Z :=
  match arr !! k with Some v => v | None => None end.

(** [arr[k] = v]: past the end the array grows, the gap holding holes. *)
Definition js_set (arr : js_array) (k : nat) (v : option Z) : js_array :=
  if bool_decide (k < length arr)%nat then <[k:=v]> arr
  else arr ++ replicate (k - length arr) None ++ [v].

(** [[arr[i], arr[j]] = [arr[j], arr[i]]]: the right-hand side is read
    first, then [arr[i]] and [arr[j]] are assigned in that order. *)
Definition js_swap (arr : js_array) (i j : nat) : js_array :=
  let vj := js_get arr j in
  let vi := js_get arr i in
  js_set (js_set arr i vj) j vi.

(** [arr.join('')]: [undefined] slots contribute the empty string. *)
Definition js_join (arr : js_array) : list Z := omap id arr.

(** ** [deterministicShuffle] *)

(** The loop [for (let i = n; i > 0; i--) { j = floor(rng() * (i+1)); swap }],
    [state] being the generator's closure state. *)
Fixpoint fisher_yates (state : Z) (arr : js_array) (i : nat) : js_array :=
  match i with
  | O => arr
  | S i' =>
      let state' := lcg_next state in
      let j := draw state' i in
      fisher_yates state' (js_swap arr i (Z.to_nat j)) i'
  end.

Definition deterministicShuffle (s : list Z) (seed : Z) : list Z :=
  js_join (fisher_yates seed (map Some s) (length s - 1)).

(** ** [generateTable] *)

Record cipher := Cipher {
  encryptTable : gmap Z Z;
  decryptTable : gmap Z Z
}.

(** Iteration [i] of the table loop:
    [encryptTable[chars[i]] = shuffled[i]; decryptTable[shuffled[i]] = chars[i]].
    [chars[i]] and [shuffled[i]] are always defined here ([i < 62] and the
    shuffled string has 62 code units, lemma [deterministicShuffle_length]);
    the other branch is unreachable. *)
Definition table_step (cs shuffled : list Z) (t : gmap Z Z * gmap Z Z) (i : nat)
    : gmap Z Z * gmap Z Z :=
  match cs !! i, shuffled !! i with
  | Some c, Some s => (<[c:=s]> t.1, <[s:=c]> t.2)
  | _, _ => t
  end.

(** One of the two maps the loop fills: [m[cs[i]] = sh[i]]. *)
Definition fill (cs sh : list Z) (m : gmap Z Z) (i : nat) : gmap Z Z :=
  match cs !! i, sh !! i with
  | Some c, Some s => <[c:=s]> m
  | _, _ => m
  end.

Definition generateTable (key : list Z) : cipher :=
  let seed := hashKey key in
  let shuffled := deterministicShuffle chars seed in
  let t := foldl (table_step chars shuffled) (∅, ∅) (seq 0 (length chars)) in
  Cipher t.1 t.2.

(** [new MonoalphabeticCipher(secretKey)]. *)
Definition new_cipher (secretKey : list Z) : cipher := generateTable secretKey.

(** ** Substitution *)

(** [table[c] || c]: a present entry is a one-character string (truthy). *)
Definition subst (t : gmap Z Z) (c : Z) : Z :=
  match t !! c with Some v => v | None => c end.

Definition encrypt (ci : cipher) (text : list Z) : list Z :=
  map (subst (encryptTable ci)) text.

Definition decrypt (ci : cipher) (text : list Z) : list Z :=
  map (subst (decryptTable ci)) text.

Definition testConsistency (ci : cipher) (testText : list Z) : bool :=
  bool_decide (decrypt ci (encrypt ci testText) = testText).

Record tableInfo := TableInfo {
  encryptTableSize : Z;
  decryptTableSize : Z;
  isComplete : bool;
  sampleMapping : option Z * option Z * option Z
}.

(** [getTableInfo()]: [Object.keys(table).length] is the number of entries. *)
Definition getTableInfo (ci : cipher) : tableInfo :=
  let ek := Z.of_nat (size (encryptTable ci)) in
  let dk := Z.of_nat (size (decryptTable ci)) in
  TableInfo ek dk ((ek =? 62) && (dk =? 62))
    (encryptTable ci !! 97, encryptTable ci !! 65, encryptTable ci !! 48).

(** ** SKU helpers of src/index.js *)

(** The code unit of ['@']. *)
Definition at_sign : Z := 64.

(** [generateSKU(productId, prefix, secretKey)] = [`${prefix}@${encrypted}`]. *)
Definition generateSKU (productId prefix secretKey : list Z) : list Z :=
  prefix ++ [at_sign] ++ encrypt (new_cipher secretKey) productId.

(** [s.split(sep)] for a one-code-unit separator. *)
Fixpoint js_split (sep : Z) (s : list Z) : list (list Z) :=
  match s with
  | [] => [[]]
  | c :: s' =>
      let rest := js_split sep s' in
      if c =? sep then [] :: rest
      else match rest with
           | r :: rs => (c :: r) :: rs
           | [] => [[c]]
           end
  end.

Record decoded := Decoded { d_prefix : list Z; d_productId : list Z }.

(** [decodeSKU(sku, secretKey)]: [const [prefix, encrypted] = sku.split('@')];
    with no ['@'], [encrypted] is [undefined] and [decrypt] throws ([None]). *)
Definition decodeSKU (sku secretKey : list Z) : option decoded :=
  match js_split at_sign sku with
  | p :: e :: _ => Some (Decoded p (decrypt (new_cipher secretKey) e))
  | _ => None
  end.

(** ** The one-call helpers of src/index.js *)
Module Index.

(** [createCipher(secretKey)]: [new MonoalphabeticCipher(secretKey)]. *)
Definition createCipher (secretKey : list Z) : cipher := new_cipher secretKey.

(** [encrypt(text, secretKey)]: a fresh instance, then its [encrypt]. *)
Definition encrypt (text secretKey : list Z) : list Z :=
  let ci := new_cipher secretKey in encrypt ci text.

(** [decrypt(text, secretKey)]: a fresh instance, then its [decrypt]. *)
Definition decrypt (text secretKey : list Z) : list Z :=
  let ci := new_cipher secretKey in decrypt ci text.

End Index.

(** * Properties *)

(** ** Rounding to doubles *)
Module Rounding.
Import JS.

Lemma pow2_pos (k : Z) : 0 <= k -> 0 < 2 ^ k.
Proof. intros. apply Z.pow_pos_nonneg; lia. Qed.

(** The scaled quotient lies in [[2^52, 2^53)] and the significand is one
    of its two integer neighbours, within half a unit. *)
Lemma round_q_core (n d : Z) :
  0 < n -> 0 < d ->
  exists a b q',
    round_q n d = Dbl q' (a - b) /\ 0 <= a /\ 0 <= b /\
    2 ^ 52 * (d * 2 ^ a) <= n * 2 ^ b < 2 ^ 53 * (d * 2 ^ a) /\
    (n * 2 ^ b) / (d * 2 ^ a) <= q' /\
    2 * q' * (d * 2 ^ a) <= 2 * (n * 2 ^ b) + d * 2 ^ a /\
    ((n * 2 ^ b) mod (d * 2 ^ a) = 0 -> q' = (n * 2 ^ b) / (d * 2 ^ a)).
Proof.
  intros Hn Hd. unfold round_q.
  destruct (Z.leb_spec n 0) as [?|_]; [lia|].
  pose proof (Z.log2_spec n Hn) as [Hn1 Hn2].
  pose proof (Z.log2_spec d Hd) as [Hd1 Hd2].
  pose proof (Z.log2_nonneg n) as Ha. pose proof (Z.log2_nonneg d) as Hb.
  set (a := Z.log2 n) in *. set (ld := Z.log2 d) in *.
  rewrite Z.pow_succ_r in Hn2, Hd2 by lia.
  assert (HP : 0 < 2 ^ a) by (apply pow2_pos; lia).
  assert (HQ : 0 < 2 ^ ld) by (apply pow2_pos; lia).
  assert (Hb0 : 2 ^ (52 + ld) = 2 ^ 52 * 2 ^ ld) by (apply Z.pow_add_r; lia).
  assert (Hb1 : 2 ^ (52 + ld + 1) = 2 * (2 ^ 52 * 2 ^ ld))
    by (rewrite Z.pow_add_r, Hb0 by lia; lia).
  set (b := if n * 2 ^ (52 + ld) <? 2 ^ 52 * (d * 2 ^ a)
            then 52 + ld + 1 else 52 + ld).
  assert (Hbnd : 2 ^ 52 * (d * 2 ^ a) <= n * 2 ^ b < 2 ^ 53 * (d * 2 ^ a)).
  { unfold b. destruct (Z.ltb_spec (n * 2 ^ (52 + ld)) (2 ^ 52 * (d * 2 ^ a))).
    - rewrite Hb1. rewrite Hb0 in *. split; [|lia].
      assert (d * 2 ^ a < 2 * 2 ^ ld * n) by nia. lia.
    - rewrite Hb0 in *. split; [lia|].
      assert (n * 2 ^ ld < 2 * 2 ^ a * d) by nia. lia. }
  assert (Hbpos : 0 <= b) by (unfold b; destruct (_ <? _); lia).
  exists a, b.
  set (nn := n * 2 ^ b) in *. set (dd := d * 2 ^ a) in *.
  assert (Hdd : 0 < dd) by (unfold dd; lia).
  pose proof (Z.div_mod nn dd ltac:(lia)) as Hdm.
  pose proof (Z.mod_pos_bound nn dd Hdd) as Hr.
  set (q := nn / dd) in *. set (r := nn mod dd) in *.
  destruct (Z.ltb_spec (2 * r) dd).
  { exists q. repeat split; try reflexivity; try lia. }
  destruct (Z.ltb_spec dd (2 * r)).
  { exists (q + 1). repeat split; try reflexivity; try lia. }
  destruct (Z.even q); [exists q | exists (q + 1)]; repeat split; try reflexivity; lia.
Qed.

Lemma dbl_frac_pos (q e : Z) : 0 <= q -> 0 <= num (Dbl q e) /\ 0 < den (Dbl q e).
Proof.
  intros Hq. unfold num, den; simpl.
  destruct (Z.leb_spec 0 e).
  - pose proof (pow2_pos e ltac:(lia)). nia.
  - pose proof (pow2_pos (- e) ltac:(lia)). lia.
Qed.

Lemma round_q_frac_pos (n d : Z) :
  0 < d -> 0 <= num (round_q n d) /\ 0 < den (round_q n d).
Proof.
  intros Hd. destruct (Z.leb_spec n 0).
  - unfold round_q. destruct (Z.leb_spec n 0); [|lia]. apply dbl_frac_pos; lia.
  - destruct (round_q_core n d) as (a & b & q' & -> & Ha & Hb & Hbnd & Hq & _); [lia|lia|].
    apply dbl_frac_pos.
    assert (0 <= (n * 2 ^ b) / (d * 2 ^ a)).
    { pose proof (pow2_pos a Ha). pose proof (pow2_pos b Hb).
      apply Z.div_pos; nia. }
    lia.
Qed.

(** Relative error at most 2^-53: [round(n/d) <= (n/d) (1 + 2^-53)]. *)
Lemma round_q_upper (n d : Z) :
  0 <= n -> 0 < d ->
  2 ^ 53 * num (round_q n d) * d <= (2 ^ 53 + 1) * n * den (round_q n d).
Proof.
  intros Hn Hd. destruct (Z.leb_spec n 0).
  { unfold round_q. destruct (Z.leb_spec n 0); [|lia].
    unfold num, den; simpl. lia. }
  destruct (round_q_core n d) as (a & b & q' & -> & Ha & Hb & Hbnd & _ & Hq2 & _); [lia|lia|].
  pose proof (pow2_pos a Ha) as HPa. pose proof (pow2_pos b Hb) as HPb.
  assert (Hm : 2 ^ 53 * q' * (d * 2 ^ a) <= (2 ^ 53 + 1) * (n * 2 ^ b)) by lia.
  unfold num, den; simpl. destruct (Z.leb_spec 0 (a - b)).
  - replace (2 ^ a) with (2 ^ (a - b) * 2 ^ b) in Hm
      by (rewrite <- Z.pow_add_r by lia; f_equal; lia).
    nia.
  - replace (2 ^ b) with (2 ^ (- (a - b)) * 2 ^ a) in Hm
      by (rewrite <- Z.pow_add_r by lia; f_equal; lia).
    nia.
Qed.

(** Integers below 2^53 are represented exactly. *)
Lemma round_q_exact (z d : Z) :
  0 < d -> 0 <= z < 2 ^ 53 ->
  num (round_q (z * d) d) = z * den (round_q (z * d) d).
Proof.
  intros Hd Hz. destruct (Z.eq_dec z 0) as [->|Hz0].
  { unfold round_q; simpl. unfold num, den; simpl. lia. }
  destruct (round_q_core (z * d) d) as (a & b & q' & -> & Ha & Hb & Hbnd & _ & _ & Hex);
    [nia|lia|].
  pose proof (pow2_pos a Ha) as HPa. pose proof (pow2_pos b Hb) as HPb.
  assert (Hab : a <= b).
  { destruct (Z.leb_spec a b); [lia|].
    replace (2 ^ a) with (2 * 2 ^ (a - b - 1) * 2 ^ b) in Hbnd
      by (rewrite <- Z.pow_succ_r, <- Z.pow_add_r by lia; f_equal; lia).
    pose proof (pow2_pos (a - b - 1) ltac:(lia)). nia. }
  replace (2 ^ b) with (2 ^ (b - a) * 2 ^ a) in Hex
    by (rewrite <- Z.pow_add_r by lia; f_equal; lia).
  replace (z * d * (2 ^ (b - a) * 2 ^ a)) with ((z * 2 ^ (b - a)) * (d * 2 ^ a)) in Hex
    by ring.
  rewrite Z.mod_mul, Z.div_mul in Hex by lia.
  specialize (Hex eq_refl). subst q'.
  unfold num, den; simpl. destruct (Z.leb_spec 0 (a - b)).
  - replace (a - b) with 0 by lia. replace (b - a) with 0 by lia. simpl. lia.
  - replace (- (a - b)) with (b - a) by lia. lia.
Qed.

(** From 2^53 on, a double is an even integer. *)
Lemma round_q_big (n d : Z) :
  0 < d -> 2 ^ 53 * d <= n ->
  den (round_q n d) = 1 /\ Z.even (num (round_q n d)) = true /\
  2 ^ 53 <= num (round_q n d).
Proof.
  intros Hd Hn.
  destruct (round_q_core n d) as (a & b & q' & -> & Ha & Hb & Hbnd & Hq & _ & _);
    [lia|lia|].
  pose proof (pow2_pos a Ha) as HPa. pose proof (pow2_pos b Hb) as HPb.
  assert (Hab : b < a).
  { destruct (Z.ltb_spec b a); [lia|].
    assert (2 ^ a <= 2 ^ b) by (apply Z.pow_le_mono_r; lia). nia. }
  assert (Hq52 : 2 ^ 52 <= q').
  { enough (2 ^ 52 <= (n * 2 ^ b) / (d * 2 ^ a)) by lia.
    apply Z.div_le_lower_bound; nia. }
  unfold num, den; simpl.
  destruct (Z.leb_spec 0 (a - b)); [|lia].
  replace (2 ^ (a - b)) with (2 * 2 ^ (a - b - 1))
    by (rewrite <- Z.pow_succ_r by lia; f_equal; lia).
  pose proof (pow2_pos (a - b - 1) ltac:(lia)).
  split; [reflexivity|]. split.
  - rewrite Z.mul_comm, <- Z.mul_assoc. apply Z.even_mul.
  - nia.
Qed.

End Rounding.

(** ** The generator *)
Module Generator.
Import JS Rounding.

(** A double computed from an exact integral value [z]: exact below 2^53,
    an even integer from 2^53 on. *)
Lemma round_int (z d : Z) :
  0 < d -> 0 <= z ->
  (z < 2 ^ 53 /\ num (round_q (z * d) d) = z * den (round_q (z * d) d)) \/
  (2 ^ 53 <= z /\ den (round_q (z * d) d) = 1 /\
   Z.even (num (round_q (z * d) d)) = true /\ 2 ^ 53 <= num (round_q (z * d) d)).
Proof.
  intros Hd Hz. destruct (Z.ltb_spec z (2 ^ 53)).
  - left. split; [lia|]. apply round_q_exact; lia.
  - right. split; [lia|]. apply round_q_big; nia.
Qed.

Lemma of_int_exact (z : Z) :
  0 <= z < 2 ^ 53 -> num (of_int z) = z * den (of_int z) /\ 0 < den (of_int z).
Proof.
  intros Hz. unfold of_int. split.
  - pose proof (round_q_exact z 1 ltac:(lia) Hz) as H. rewrite Z.mul_1_r in H.
    exact H.
  - apply round_q_frac_pos; lia.
Qed.

Lemma lcg_float_cases (s : Z) :
  0 <= s < 2 ^ 53 ->
  (s * 1103515245 + 12345 < 2 ^ 53 /\ lcg_float s = s * 1103515245 + 12345) \/
  (0 <= lcg_float s /\ Z.even (lcg_float s) = true).
Proof.
  intros Hs. unfold lcg_float.
  destruct (of_int_exact s Hs) as [Hs1 Hs2].
  destruct (of_int_exact 1103515245 ltac:(lia)) as [Ha1 Ha2].
  destruct (of_int_exact 12345 ltac:(lia)) as [Hc1 Hc2].
  set (x := of_int s) in *. set (y := of_int 1103515245) in *.
  set (c := of_int 12345) in *.
  unfold mul. rewrite Hs1, Ha1.
  replace (s * den x * (1103515245 * den y)) with
    ((s * 1103515245) * (den x * den y)) by ring.
  set (m := round_q (s * 1103515245 * (den x * den y)) (den x * den y)).
  destruct (round_int (s * 1103515245) (den x * den y)) as
    [[Hlt Hm] | (Hge & Hmd & Hme & Hmb)]; [nia|nia| |].
  - pose proof (round_q_frac_pos (s * 1103515245 * (den x * den y)) (den x * den y)
                  ltac:(nia)) as [_ Hmd].
    fold m in Hm, Hmd. unfold add. rewrite Hm, Hc1.
    replace (s * 1103515245 * den m * den c + 12345 * den c * den m) with
      ((s * 1103515245 + 12345) * (den m * den c)) by ring.
    destruct (round_int (s * 1103515245 + 12345) (den m * den c)) as
      [[Hlt' He] | (_ & Hd1 & Hev & Hb)]; [nia|nia| |].
    + left. split; [lia|]. unfold floor. rewrite He.
      apply Z.div_mul. pose proof (round_q_frac_pos
        ((s * 1103515245 + 12345) * (den m * den c)) (den m * den c) ltac:(nia)).
      lia.
    + right. unfold floor. rewrite Hd1, Z.div_1_r. split; [lia|exact Hev].
  - right. fold m in Hmd, Hme, Hmb. unfold add. rewrite Hmd, Hc1.
    replace (num m * den c + 12345 * den c * 1) with
      ((num m + 12345) * (1 * den c)) by ring.
    destruct (round_int (num m + 12345) (1 * den c)) as
      [[Hlt' _] | (_ & Hd1 & Hev & Hb)]; [lia|lia|lia|].
    unfold floor. rewrite Hd1, Z.div_1_r. split; [lia|exact Hev].
Qed.

(** [x & 0x7fffffff] on ToInt32 of an integer keeps its low 31 bits. *)
Lemma land_toInt32_mask (x : Z) :
  Z.land (toInt32 x) (toInt32 0x7fffffff) = x mod 2 ^ 31.
Proof.
  change (toInt32 0x7fffffff) with (Z.ones 31).
  rewrite Z.land_ones by lia. unfold toInt32.
  pose proof (Z.div_mod x (2 ^ 32) ltac:(lia)) as Hx.
  assert (Hm : x mod 2 ^ 32 = x + (- (2 * (x / 2 ^ 32))) * 2 ^ 31) by lia.
  destruct (Z.leb_spec (2 ^ 31) (x mod 2 ^ 32)).
  - replace (x mod 2 ^ 32 - 2 ^ 32) with (x + (- (2 * (x / 2 ^ 32)) - 2) * 2 ^ 31)
      by lia.
    apply Z.mod_add; lia.
  - rewrite Hm. apply Z.mod_add; lia.
Qed.

Lemma lcg_next_float (s : Z) : lcg_next s = lcg_float s mod 2 ^ 31.
Proof. unfold lcg_next, lcg_float. apply land_toInt32_mask. Qed.

(** Every state the closure can reach from a seed in [[0, 2^31]] lies in
    [[0, 0x7fffffff)]: the exact recurrence hits [0x7fffffff] only from
    230538014 (mod 2^31), where the double product is no longer exact, and
    a rounded value is even. *)
Lemma lcg_next_range (s : Z) :
  0 <= s <= 2 ^ 31 -> 0 <= lcg_next s < 0x7fffffff.
Proof.
  intros Hs. rewrite lcg_next_float.
  pose proof (Z.mod_pos_bound (lcg_float s) (2 ^ 31) ltac:(lia)) as Hb.
  split; [lia|].
  enough (lcg_float s mod 2 ^ 31 <> 2 ^ 31 - 1) by lia. intros Heq.
  pose proof (Z.div_mod (lcg_float s) (2 ^ 31) ltac:(lia)) as Hdm.
  destruct (lcg_float_cases s ltac:(lia)) as [[Hlt He] | [_ Hev]].
  - rewrite He in Hdm, Heq. rewrite Heq in Hdm.
    set (t := (s * 1103515245 + 12345) / 2 ^ 31) in Hdm. lia.
  - apply Z.even_spec in Hev as [k Hk]. rewrite Heq in Hdm. lia.
Qed.

End Generator.

(** ** The Fisher-Yates draw *)
Module Draw.
Import JS Rounding Generator.

(** [state / 0x7fffffff] is at most [(state / 0x7fffffff) (1 + 2^-53)]. *)
Lemma rng_value_upper (st : Z) :
  0 <= st < 2 ^ 53 ->
  2 ^ 53 * num (rng_value st) * 0x7fffffff <= (2 ^ 53 + 1) * st * den (rng_value st)
  /\ 0 <= num (rng_value st) /\ 0 < den (rng_value st).
Proof.
  intros Hst. unfold rng_value, div.
  destruct (of_int_exact st Hst) as [Hx1 Hx2].
  destruct (of_int_exact 0x7fffffff ltac:(lia)) as [Hy1 Hy2].
  set (x := of_int st) in *. set (y := of_int 0x7fffffff) in *.
  rewrite Hx1, Hy1.
  replace (st * den x * den y) with (st * (den x * den y)) by ring.
  replace (den x * (0x7fffffff * den y)) with (0x7fffffff * (den x * den y)) by ring.
  pose proof (round_q_upper (st * (den x * den y)) (0x7fffffff * (den x * den y))
                ltac:(nia) ltac:(nia)) as Hu.
  pose proof (round_q_frac_pos (st * (den x * den y)) (0x7fffffff * (den x * den y))
                ltac:(nia)) as [Hp1 Hp2].
  set (r := round_q (st * (den x * den y)) (0x7fffffff * (den x * den y))) in *.
  repeat split; try lia.
  assert (0 < den x * den y) by nia. nia.
Qed.

(** The generator's value is in [[0, 1)] for every state below [0x7fffffff]. *)
Lemma rng_value_unit (st : Z) :
  0 <= st < 0x7fffffff -> 0 <= num (rng_value st) < den (rng_value st).
Proof.
  intros Hst. destruct (rng_value_upper st ltac:(lia)) as (Hu & Hn & Hd).
  split; [lia|]. nia.
Qed.

(** [Math.floor(rng() * (i + 1))] is an index in [[0, i]]. *)
Lemma draw_bound (st : Z) (i : nat) :
  0 <= st < 0x7fffffff -> Z.of_nat i + 1 < 2 ^ 53 ->
  0 <= draw st i <= Z.of_nat i.
Proof.
  intros Hst Hi. destruct (rng_value_upper st ltac:(lia)) as (H1 & Hn & Hd).
  unfold draw, mul.
  destruct (of_int_exact (Z.of_nat i + 1) ltac:(lia)) as [Hc1 Hc2].
  set (v := rng_value st) in *. set (c := of_int (Z.of_nat i + 1)) in *.
  rewrite Hc1.
  replace (num v * ((Z.of_nat i + 1) * den c)) with
    ((num v * (Z.of_nat i + 1)) * den c) by ring.
  pose proof (round_q_upper (num v * (Z.of_nat i + 1) * den c) (den v * den c)
                ltac:(nia) ltac:(nia)) as H2.
  pose proof (round_q_frac_pos (num v * (Z.of_nat i + 1) * den c) (den v * den c)
                ltac:(nia)) as [Hp2 Hd2].
  set (w := round_q (num v * (Z.of_nat i + 1) * den c) (den v * den c)) in *.
  set (K := 2 ^ 53) in *. set (M := 0x7fffffff) in *. set (I := Z.of_nat i + 1) in *.
  assert (HK : K = 2 ^ 53) by reflexivity. assert (HM : M = 0x7fffffff) by reflexivity.
  (* cancel [den c] *)
  assert (H2' : K * num w * den v <= (K + 1) * num v * I * den w) by nia.
  (* chain the two error bounds *)
  assert (H3 : K * (K * num w * den v) * M <= K * ((K + 1) * num v * I * den w) * M)
    by (apply Z.mul_le_mono_nonneg_r; [lia|]; apply Z.mul_le_mono_nonneg_l; lia).
  assert (H4 : K * (K + 1) * num v * I * den w * M <=
               (K + 1) * ((K + 1) * st * den v) * I * den w).
  { replace (K * (K + 1) * num v * I * den w * M) with
      ((K * num v * M) * ((K + 1) * I * den w)) by ring.
    replace ((K + 1) * ((K + 1) * st * den v) * I * den w) with
      (((K + 1) * st * den v) * ((K + 1) * I * den w)) by ring.
    apply Z.mul_le_mono_nonneg_r; [nia|lia]. }
  assert (H5 : K * K * num w * M <= (K + 1) * (K + 1) * st * I * den w).
  { apply (Z.mul_le_mono_pos_r _ _ (den v)); [lia|]. nia. }
  assert (H6 : (K + 1) * (K + 1) * st < K * K * M) by (subst K M; lia).
  assert (H7 : num w < I * den w).
  { assert ((K + 1) * (K + 1) * st * I * den w < K * K * M * I * den w).
    { apply Z.mul_lt_mono_pos_r; [lia|]. apply Z.mul_lt_mono_pos_r; [lia|]. exact H6. }
    assert (K * K * M * num w < K * K * M * (I * den w)) by lia.
    apply Z.mul_lt_mono_pos_l in H0; [lia|]. subst K M; lia. }
  unfold floor. split.
  - apply Z.div_pos; lia.
  - assert (num w / den w < I) by (apply Z.div_lt_upper_bound; lia). lia.
Qed.

End Draw.

(** ** Key hash range *)
Module Hash.
Import JS.

Lemma toInt32_range (x : Z) : - 2 ^ 31 <= toInt32 x < 2 ^ 31.
Proof.
  unfold toInt32. pose proof (Z.mod_pos_bound x (2 ^ 32) ltac:(lia)).
  destruct (Z.leb_spec (2 ^ 31) (x mod 2 ^ 32)); lia.
Qed.

Lemma hash_step_eq (h c : Z) :
  hash_step h c = toInt32 (toInt32 (Z.shiftl (toInt32 h) 5) - h + c).
Proof. unfold hash_step. change (toInt32 0xffffffff) with (-1). apply Z.land_m1_r. Qed.

Lemma fold_hash_range (key : list Z) (h : Z) :
  - 2 ^ 31 <= h < 2 ^ 31 -> - 2 ^ 31 <= fold_left hash_step key h < 2 ^ 31.
Proof.
  revert h. induction key as [|c key IH]; intros h Hh; simpl; [exact Hh|].
  apply IH. rewrite hash_step_eq. apply toInt32_range.
Qed.

Lemma hashKey_range (key : list Z) : 0 <= hashKey key <= 2 ^ 31.
Proof.
  unfold hashKey. pose proof (fold_hash_range key 0 ltac:(lia)). lia.
Qed.

End Hash.

(** ** The shuffle is a permutation *)
Module Shuffle.
Import Generator Draw Hash.

Lemma lookup_map_Some {A B} (f : A -> B) (l : list A) (i : nat) :
  map f l !! i = f <$> l !! i.
Proof. revert i. induction l as [|x l IH]; intros [|i]; simpl; auto. Qed.

Lemma insert_map {A B} (f : A -> B) (l : list A) (i : nat) (x : A) :
  <[i:=f x]> (map f l) = map f (<[i:=x]> l).
Proof. revert i. induction l as [|y l IH]; intros [|i]; simpl; auto; by rewrite IH. Qed.

Lemma js_join_map_Some (l : list Z) : js_join (map Some l) = l.
Proof. induction l as [|x l IH]; simpl; [done|]. unfold js_join in *; simpl. by rewrite IH. Qed.

Lemma js_set_in_range (l : list Z) (k : nat) (x : Z) :
  (k < length l)%nat -> js_set (map Some l) k (Some x) = map Some (<[k:=x]> l).
Proof.
  intros Hk. unfold js_set. rewrite length_map, bool_decide_eq_true_2 by lia.
  apply insert_map.
Qed.

(** A swap of two in-range slots of a dense array. *)
Lemma js_swap_in_range (l : list Z) (i j : nat) :
  (i < length l)%nat -> (j < length l)%nat ->
  exists xi xj, l !! i = Some xi /\ l !! j = Some xj /\
    js_swap (map Some l) i j = map Some (<[j:=xi]> (<[i:=xj]> l)).
Proof.
  intros Hi Hj.
  destruct (lookup_lt_is_Some_2 l i Hi) as [xi Hxi].
  destruct (lookup_lt_is_Some_2 l j Hj) as [xj Hxj].
  exists xi, xj. split; [done|]. split; [done|].
  unfold js_swap, js_get. rewrite !lookup_map_Some, Hxi, Hxj; simpl.
  rewrite js_set_in_range by lia. rewrite js_set_in_range by (rewrite length_insert; lia).
  done.
Qed.

Lemma fisher_yates_perm (i : nat) (st : Z) (l : list Z) :
  0 <= st <= 2 ^ 31 -> (i < length l)%nat -> Z.of_nat (length l) < 2 ^ 53 ->
  exists l', fisher_yates st (map Some l) i = map Some l' /\ l' ≡ₚ l.
Proof.
  revert st l. induction i as [|i IH]; intros st l Hst Hi Hl; simpl.
  { by exists l. }
  pose proof (lcg_next_range st Hst) as Hst'.
  pose proof (draw_bound (lcg_next st) (S i) Hst' ltac:(lia)) as Hj.
  destruct (js_swap_in_range l (S i) (Z.to_nat (draw (lcg_next st) (S i))) Hi ltac:(lia))
    as (xi & xj & Hxi & Hxj & ->).
  pose proof (Permutation_insert_swap l (S i) (Z.to_nat (draw (lcg_next st) (S i))) xi xj
                Hxi Hxj) as Hperm.
  destruct (IH (lcg_next st) (<[Z.to_nat (draw (lcg_next st) (S i)):=xi]> (<[S i:=xj]> l)))
    as (l' & -> & Hl'); [lia|rewrite !length_insert; lia|rewrite !length_insert; lia|].
  exists l'. split; [done|]. by rewrite Hl'.
Qed.

(** [deterministicShuffle] returns a permutation of its input for every seed
    the key hash can produce. *)
Lemma deterministicShuffle_perm (s : list Z) (seed : Z) :
  0 <= seed <= 2 ^ 31 -> Z.of_nat (length s) < 2 ^ 53 ->
  deterministicShuffle s seed ≡ₚ s.
Proof.
  intros Hseed Hl. unfold deterministicShuffle. destruct s as [|x s]; [done|].
  destruct (fisher_yates_perm (length (x :: s) - 1) seed (x :: s) Hseed
              ltac:(simpl; lia) Hl) as (l' & -> & Hp).
  by rewrite js_join_map_Some.
Qed.

Lemma chars_length : length chars = 62%nat.
Proof. reflexivity. Qed.

Lemma chars_NoDup : NoDup chars.
Proof. apply (bool_decide_unpack _). vm_compute. exact I. Qed.

Lemma shuffled_perm (key : list Z) :
  deterministicShuffle chars (hashKey key) ≡ₚ chars.
Proof.
  apply deterministicShuffle_perm; [apply hashKey_range|]. rewrite chars_length. lia.
Qed.

Lemma deterministicShuffle_length (key : list Z) :
  length (deterministicShuffle chars (hashKey key)) = 62%nat.
Proof. by rewrite (Permutation_length (shuffled_perm key)). Qed.

End Shuffle.

(** ** The lookup tables *)
Module Tables.
Import Shuffle.

Lemma table_step_split (cs sh : list Z) (m1 m2 : gmap Z Z) (i : nat) :
  table_step cs sh (m1, m2) i = (fill cs sh m1 i, fill sh cs m2 i).
Proof. unfold table_step, fill; simpl. by destruct (cs !! i), (sh !! i). Qed.

Lemma table_fold_split (cs sh : list Z) (l : list nat) (m1 m2 : gmap Z Z) :
  foldl (table_step cs sh) (m1, m2) l = (foldl (fill cs sh) m1 l, foldl (fill sh cs) m2 l).
Proof.
  revert m1 m2. induction l as [|i l IH]; intros m1 m2; simpl; [done|].
  rewrite table_step_split. apply IH.
Qed.

Lemma fill_lookup (cs sh : list Z) (n : nat) (c v : Z) :
  NoDup cs ->
  foldl (fill cs sh) ∅ (seq 0 n) !! c = Some v <->
  exists k, (k < n)%nat /\ cs !! k = Some c /\ sh !! k = Some v.
Proof.
  intros Hnd. induction n as [|n IH].
  { simpl. rewrite lookup_empty. split; [done|]. intros (k & ? & _); lia. }
  rewrite seq_S, foldl_app; simpl. unfold fill at 1.
  destruct (cs !! n) as [cn|] eqn:Hc; [destruct (sh !! n) as [sn|] eqn:Hs|].
  - rewrite lookup_insert_Some, IH. split.
    + intros [[-> ->] | [_ (k & ? & ? & ?)]]; [exists n | exists k]; repeat split; auto; lia.
    + intros (k & Hk & Hck & Hsk). destruct (decide (k = n)) as [->|Hkn].
      * left. rewrite Hc in Hck. rewrite Hs in Hsk. by simplify_eq.
      * right. split; [|exists k; repeat split; auto; lia].
        intros Heq. rewrite Heq in Hc.
        pose proof (NoDup_lookup cs k n c Hnd Hck Hc). lia.
  - rewrite IH. split.
    + intros (k & ? & ? & ?). exists k; repeat split; auto; lia.
    + intros (k & Hk & Hck & Hsk). destruct (decide (k = n)) as [->|Hkn]; [congruence|].
      exists k; repeat split; auto; lia.
  - rewrite IH. split.
    + intros (k & ? & ? & ?). exists k; repeat split; auto; lia.
    + intros (k & Hk & Hck & Hsk). destruct (decide (k = n)) as [->|Hkn]; [congruence|].
      exists k; repeat split; auto; lia.
Qed.

(** The key's shuffled alphabet. *)
Lemma encryptTable_lookup (key : list Z) (c v : Z) :
  encryptTable (new_cipher key) !! c = Some v <->
  exists k, chars !! k = Some c /\ deterministicShuffle chars (hashKey key) !! k = Some v.
Proof.
  unfold new_cipher, generateTable. cbv zeta. rewrite table_fold_split.
  cbn [fst snd encryptTable decryptTable].
  rewrite fill_lookup by apply chars_NoDup. split.
  - intros (k & _ & ? & ?). eauto.
  - intros (k & Hk & ?). exists k. repeat split; auto. apply lookup_lt_Some in Hk. lia.
Qed.

Lemma decryptTable_lookup (key : list Z) (c v : Z) :
  decryptTable (new_cipher key) !! c = Some v <->
  exists k, deterministicShuffle chars (hashKey key) !! k = Some c /\ chars !! k = Some v.
Proof.
  unfold new_cipher, generateTable. cbv zeta. rewrite table_fold_split.
  cbn [fst snd encryptTable decryptTable].
  rewrite fill_lookup by (rewrite (shuffled_perm key); apply chars_NoDup). split.
  - intros (k & _ & ? & ?). eauto.
  - intros (k & Hk & ?). exists k. repeat split; auto. apply lookup_lt_Some in Hk.
    rewrite deterministicShuffle_length in Hk. rewrite chars_length. lia.
Qed.

(** The tables are the maps of the zipped alphabets. *)
Lemma encryptTable_list_to_map (key : list Z) :
  encryptTable (new_cipher key) =
  list_to_map (zip chars (deterministicShuffle chars (hashKey key))).
Proof.
  apply map_eq. intros c. apply option_eq. intros v.
  rewrite encryptTable_lookup, <- elem_of_list_to_map.
  2:{ rewrite fst_zip; [apply chars_NoDup|]. by rewrite deterministicShuffle_length. }
  rewrite list_elem_of_lookup. split.
  - intros (k & ? & ?). exists k. apply lookup_zip_with_Some. eauto.
  - intros (k & Hk). apply lookup_zip_with_Some in Hk as (x & y & ? & ? & ?).
    simplify_eq. eauto.
Qed.

Lemma decryptTable_list_to_map (key : list Z) :
  decryptTable (new_cipher key) =
  list_to_map (zip (deterministicShuffle chars (hashKey key)) chars).
Proof.
  apply map_eq. intros c. apply option_eq. intros v.
  rewrite decryptTable_lookup, <- elem_of_list_to_map.
  2:{ rewrite fst_zip; [rewrite (shuffled_perm key); apply chars_NoDup|].
      by rewrite deterministicShuffle_length. }
  rewrite list_elem_of_lookup. split.
  - intros (k & ? & ?). exists k. apply lookup_zip_with_Some. eauto.
  - intros (k & Hk). apply lookup_zip_with_Some in Hk as (x & y & ? & ? & ?).
    simplify_eq. eauto.
Qed.

Lemma encrypt_in (key : list Z) (c : Z) :
  c ∈ chars -> exists v, encryptTable (new_cipher key) !! c = Some v /\ v ∈ chars /\
                         decryptTable (new_cipher key) !! v = Some c.
Proof.
  intros Hc. apply list_elem_of_lookup in Hc as [k Hk].
  assert (Hlt : (k < length (deterministicShuffle chars (hashKey key)))%nat)
    by (rewrite deterministicShuffle_length; apply lookup_lt_Some in Hk; done).
  destruct (lookup_lt_is_Some_2 _ _ Hlt) as [v Hv].
  exists v. rewrite encryptTable_lookup, decryptTable_lookup. split; [eauto|]. split; [|eauto].
  rewrite <- (shuffled_perm key). by apply list_elem_of_lookup_2 with k.
Qed.

Lemma decrypt_in (key : list Z) (c : Z) :
  c ∈ chars -> exists u, decryptTable (new_cipher key) !! c = Some u /\ u ∈ chars /\
                         encryptTable (new_cipher key) !! u = Some c.
Proof.
  intros Hc. rewrite <- (shuffled_perm key) in Hc.
  apply list_elem_of_lookup in Hc as [k Hk].
  assert (Hlt : (k < length chars)%nat)
    by (apply lookup_lt_Some in Hk; rewrite deterministicShuffle_length in Hk; done).
  destruct (lookup_lt_is_Some_2 _ _ Hlt) as [u Hu].
  exists u. rewrite encryptTable_lookup, decryptTable_lookup. split; [eauto|]. split; [|eauto].
  by apply list_elem_of_lookup_2 with k.
Qed.

Lemma encrypt_out (key : list Z) (c : Z) :
  c ∉ chars -> encryptTable (new_cipher key) !! c = None.
Proof.
  intros Hc. apply eq_None_not_Some. intros [v Hv].
  apply encryptTable_lookup in Hv as (k & Hk & _). apply Hc.
  by apply list_elem_of_lookup_2 with k.
Qed.

Lemma decrypt_out (key : list Z) (c : Z) :
  c ∉ chars -> decryptTable (new_cipher key) !! c = None.
Proof.
  intros Hc. apply eq_None_not_Some. intros [v Hv].
  apply decryptTable_lookup in Hv as (k & Hk & _). apply Hc.
  rewrite <- (shuffled_perm key). by apply list_elem_of_lookup_2 with k.
Qed.

End Tables.

(** ** Substitution of one code unit *)
Module Codec.
Import Tables.

Lemma subst_enc_dec (key : list Z) (c : Z) :
  subst (decryptTable (new_cipher key)) (subst (encryptTable (new_cipher key)) c) = c.
Proof.
  unfold subst. destruct (decide (c ∈ chars)) as [Hc|Hc].
  - destruct (encrypt_in key c Hc) as (v & -> & _ & ->). done.
  - rewrite encrypt_out by done. by rewrite decrypt_out.
Qed.

Lemma subst_dec_enc (key : list Z) (c : Z) :
  subst (encryptTable (new_cipher key)) (subst (decryptTable (new_cipher key)) c) = c.
Proof.
  unfold subst. destruct (decide (c ∈ chars)) as [Hc|Hc].
  - destruct (decrypt_in key c Hc) as (u & -> & _ & ->). done.
  - rewrite decrypt_out by done. by rewrite encrypt_out.
Qed.

Lemma decrypt_encrypt (key text : list Z) :
  decrypt (new_cipher key) (encrypt (new_cipher key) text) = text.
Proof.
  unfold encrypt, decrypt. rewrite map_map.
  induction text as [|c text IH]; cbn [map]; [done|]. by rewrite subst_enc_dec, IH.
Qed.

Lemma encrypt_decrypt (key text : list Z) :
  encrypt (new_cipher key) (decrypt (new_cipher key) text) = text.
Proof.
  unfold encrypt, decrypt. rewrite map_map.
  induction text as [|c text IH]; cbn [map]; [done|]. by rewrite subst_dec_enc, IH.
Qed.

Lemma subst_out (key : list Z) (c : Z) :
  c ∉ chars ->
  subst (encryptTable (new_cipher key)) c = c /\ subst (decryptTable (new_cipher key)) c = c.
Proof. intros Hc. unfold subst. by rewrite encrypt_out, decrypt_out. Qed.

(** Encryption maps the alphabet into itself and keeps everything else. *)
Lemma subst_enc_in_chars (key : list Z) (c : Z) :
  c ∈ chars -> subst (encryptTable (new_cipher key)) c ∈ chars.
Proof.
  intros Hc. unfold subst. by destruct (encrypt_in key c Hc) as (v & -> & ? & _).
Qed.

Lemma at_sign_not_in_chars : at_sign ∉ chars.
Proof. apply (bool_decide_unpack _). vm_compute. exact I. Qed.

Lemma at_sign_not_in_encrypt (key productId : list Z) :
  at_sign ∉ productId -> at_sign ∉ encrypt (new_cipher key) productId.
Proof.
  intros Hp. unfold encrypt. intros Hin.
  apply list_elem_of_In, in_map_iff in Hin as (c & Hc & Hin).
  apply list_elem_of_In in Hin.
  destruct (decide (c ∈ chars)) as [Hch|Hch].
  - apply at_sign_not_in_chars. rewrite <- Hc. by apply subst_enc_in_chars.
  - destruct (subst_out key c Hch) as [He _]. rewrite He in Hc. subst c. done.
Qed.

(** [split('@')] of the generated SKU. *)
Lemma js_split_no_sep (sep : Z) (l : list Z) : sep ∉ l -> js_split sep l = [l].
Proof.
  induction l as [|c l IH]; intros Hl; simpl; [done|].
  rewrite not_elem_of_cons in Hl. destruct Hl as [Hc Hl].
  rewrite IH by done. destruct (Z.eqb_spec c sep); [congruence|done].
Qed.

Lemma js_split_app (sep : Z) (p rest : list Z) :
  sep ∉ p -> js_split sep (p ++ sep :: rest) = p :: js_split sep rest.
Proof.
  induction p as [|c p IH]; intros Hp; simpl.
  - by rewrite Z.eqb_refl.
  - rewrite not_elem_of_cons in Hp. destruct Hp as [Hc Hp].
    rewrite IH by done. destruct (Z.eqb_spec c sep); [congruence|done].
Qed.

End Codec.

(** ** The hash against the specification's accumulation *)
Module HashSpec.
Import JS Hash.

Lemma toInt32_mod (x : Z) : toInt32 (x mod 2 ^ 32) = toInt32 x.
Proof. unfold toInt32. by rewrite Z.mod_mod by lia. Qed.

Lemma toInt32_add_mul (x t : Z) : toInt32 (x + t * 2 ^ 32) = toInt32 x.
Proof. unfold toInt32. by rewrite Z.mod_add by lia. Qed.

Lemma toInt32_repr (x : Z) : exists t, toInt32 x = x + t * 2 ^ 32.
Proof.
  unfold toInt32. pose proof (Z.div_mod x (2 ^ 32) ltac:(lia)).
  destruct (Z.leb_spec (2 ^ 31) (x mod 2 ^ 32)).
  - exists (- (x / 2 ^ 32) - 1). lia.
  - exists (- (x / 2 ^ 32)). lia.
Qed.

Lemma hash_step_spec (a c : Z) :
  hash_step (toInt32 a) c = toInt32 ((Z.shiftl a 5 - a + c) mod 2 ^ 32).
Proof.
  rewrite hash_step_eq, toInt32_mod, !Z.shiftl_mul_pow2 by lia.
  destruct (toInt32_repr a) as [t1 H1].
  assert (H2 : toInt32 (toInt32 a) = a + t1 * 2 ^ 32)
    by (rewrite H1, toInt32_add_mul; exact H1).
  rewrite H2. destruct (toInt32_repr ((a + t1 * 2 ^ 32) * 2 ^ 5)) as [t3 H3].
  rewrite H3, H1.
  replace ((a + t1 * 2 ^ 32) * 2 ^ 5 + t3 * 2 ^ 32 - (a + t1 * 2 ^ 32) + c) with
    ((a * 2 ^ 5 - a + c) + (31 * t1 + t3) * 2 ^ 32) by ring.
  apply toInt32_add_mul.
Qed.

Lemma fold_hash_spec (key : list Z) (a : Z) :
  fold_left hash_step key (toInt32 a) =
  toInt32 (fold_left (fun hash c => (Z.shiftl hash 5 - hash + c) mod 2 ^ 32) key a).
Proof.
  revert a. induction key as [|c key IH]; intros a; cbn [fold_left]; [done|].
  rewrite hash_step_spec, toInt32_mod, <- IH. f_equal. by rewrite toInt32_mod.
Qed.

End HashSpec.

(** ** Encryption of strings without alphabet characters *)
Module Passthrough.
Import Shuffle Codec.

Lemma encrypt_outside (key text : list Z) :
  Forall (fun c => c ∉ chars) text -> encrypt (new_cipher key) text = text.
Proof.
  unfold encrypt. induction 1 as [|c text Hc _ IH]; cbn [map]; [done|].
  destruct (subst_out key c Hc) as [-> _]. by rewrite IH.
Qed.

Lemma lookup_encrypt (key text : list Z) (k : nat) :
  encrypt (new_cipher key) text !! k = subst (encryptTable (new_cipher key)) <$> text !! k.
Proof. apply lookup_map_Some. Qed.

Lemma lookup_decrypt (key text : list Z) (k : nat) :
  decrypt (new_cipher key) text !! k = subst (decryptTable (new_cipher key)) <$> text !! k.
Proof. apply lookup_map_Some. Qed.

Lemma special_chars_outside : Forall (fun c => c ∉ chars) (str "!@#$%^&*()").
Proof. apply (bool_decide_unpack _). vm_compute. exact I. Qed.

End Passthrough.

(** ** Table sizes *)
Module Sizes.
Import Shuffle Tables.

Lemma encryptTable_size (key : list Z) : size (encryptTable (new_cipher key)) = 62%nat.
Proof.
  rewrite encryptTable_list_to_map, map_size_list_to_map.
  - rewrite length_zip_with, deterministicShuffle_length, chars_length. done.
  - rewrite fst_zip; [apply chars_NoDup|]. by rewrite deterministicShuffle_length.
Qed.

Lemma decryptTable_size (key : list Z) : size (decryptTable (new_cipher key)) = 62%nat.
Proof.
  rewrite decryptTable_list_to_map, map_size_list_to_map.
  - rewrite length_zip_with, deterministicShuffle_length, chars_length. done.
  - rewrite fst_zip; [rewrite (shuffled_perm key); apply chars_NoDup|].
    by rewrite deterministicShuffle_length.
Qed.

End Sizes.

(** * The claims *)
Import Generator Draw Hash Shuffle Tables Codec HashSpec Passthrough Sizes.

(** C1: for every key and every string [S] (any code units, the empty string
    included), [decrypt(encrypt(S)) = S] and [encrypt(decrypt(S)) = S] on the
    cipher built from that key. *)
Theorem roundtrip_any_string (key S : list Z) :
  decrypt (new_cipher key) (encrypt (new_cipher key) S) = S /\
  encrypt (new_cipher key) (decrypt (new_cipher key) S) = S.
Proof. split; [apply decrypt_encrypt | apply encrypt_decrypt]. Qed.

(** C2: two instances constructed from the same key have the same forward
    and inverse tables and encrypt every text identically. *)
Theorem same_key_same_cipher (key1 key2 text : list Z) :
  key1 = key2 ->
  encryptTable (new_cipher key1) = encryptTable (new_cipher key2) /\
  decryptTable (new_cipher key1) = decryptTable (new_cipher key2) /\
  encrypt (new_cipher key1) text = encrypt (new_cipher key2) text.
Proof. intros ->. auto. Qed.

Lemma same_key_same_cipher_witness :
  str "TEST_KEY" = str "TEST_KEY" /\
  encryptTable (new_cipher (str "TEST_KEY")) = encryptTable (new_cipher (str "TEST_KEY")) /\
  decryptTable (new_cipher (str "TEST_KEY")) = decryptTable (new_cipher (str "TEST_KEY")) /\
  encrypt (new_cipher (str "TEST_KEY")) (str "ConsistencyTest123") =
  encrypt (new_cipher (str "TEST_KEY")) (str "ConsistencyTest123").
Proof.
  split; [reflexivity|].
  apply (same_key_same_cipher (str "TEST_KEY") (str "TEST_KEY") (str "ConsistencyTest123")).
  reflexivity.
Defined.

(** C3: for every key the forward table has each of the 62 alphabet
    characters exactly once as a key and exactly once as a value, the
    inverse table has each exactly once as a key, and
    [InverseTable[ForwardTable[c]] = c] for every alphabet character. *)
Theorem tables_are_permutation (key : list Z) :
  (map_to_list (encryptTable (new_cipher key))).*1 ≡ₚ chars /\
  (map_to_list (encryptTable (new_cipher key))).*2 ≡ₚ chars /\
  (map_to_list (decryptTable (new_cipher key))).*1 ≡ₚ chars /\
  (forall c, c ∈ chars -> exists v,
     encryptTable (new_cipher key) !! c = Some v /\ decryptTable (new_cipher key) !! v = Some c).
Proof.
  pose proof (deterministicShuffle_length key) as Hlen.
  pose proof (shuffled_perm key) as Hperm.
  assert (Hnd : NoDup (zip chars (deterministicShuffle chars (hashKey key))).*1).
  { rewrite fst_zip; [apply chars_NoDup|]. by rewrite Hlen. }
  assert (Hnd' : NoDup (zip (deterministicShuffle chars (hashKey key)) chars).*1).
  { rewrite fst_zip; [rewrite Hperm; apply chars_NoDup|]. by rewrite Hlen. }
  split; [|split; [|split]].
  - rewrite encryptTable_list_to_map, (map_to_list_to_map _ Hnd), fst_zip; [done|].
    by rewrite Hlen.
  - rewrite encryptTable_list_to_map, (map_to_list_to_map _ Hnd), snd_zip; [done|].
    by rewrite Hlen.
  - rewrite decryptTable_list_to_map, (map_to_list_to_map _ Hnd'), fst_zip; [done|].
    by rewrite Hlen.
  - intros c Hc. destruct (encrypt_in key c Hc) as (v & ? & _ & ?). eauto.
Qed.

(** The generator states after [n] calls stay in [[0, 2^31]]. *)
Lemma iter_lcg_range (seed : Z) (n : nat) :
  0 <= seed <= 2 ^ 31 -> 0 <= Nat.iter n lcg_next seed <= 2 ^ 31.
Proof.
  intros Hs. induction n as [|n IH]; [exact Hs|].
  change (Nat.iter (S n) lcg_next seed) with (lcg_next (Nat.iter n lcg_next seed)).
  pose proof (lcg_next_range _ IH). lia.
Qed.

(** C4: for every key, every value the seeded generator yields (its
    [n+1]-th call) is a double in [[0, 1)] (as a fraction [num / den]), and
    the Fisher-Yates draw [floor(value * (i + 1))] is an index in [[0, i]]
    for every loop index [i] of the 62-character shuffle. *)
Theorem rng_unit_interval_and_draw_in_bounds (key : list Z) (n i : nat) :
  (i < length chars)%nat ->
  0 <= Nat.iter (S n) lcg_next (hashKey key) < 0x7fffffff /\
  0 <= JS.num (rng_value (Nat.iter (S n) lcg_next (hashKey key))) <
       JS.den (rng_value (Nat.iter (S n) lcg_next (hashKey key))) /\
  0 <= draw (Nat.iter (S n) lcg_next (hashKey key)) i <= Z.of_nat i.
Proof.
  intros Hi. rewrite chars_length in Hi.
  change (Nat.iter (S n) lcg_next (hashKey key))
    with (lcg_next (Nat.iter n lcg_next (hashKey key))).
  pose proof (lcg_next_range _ (iter_lcg_range _ n (hashKey_range key))) as Hst.
  split; [exact Hst|]. split.
  - by apply rng_value_unit.
  - apply draw_bound; [exact Hst | lia].
Qed.

Lemma rng_unit_interval_and_draw_in_bounds_witness :
  (61 < length chars)%nat /\
  0 <= Nat.iter 1 lcg_next (hashKey (str "MONO_CIPHER_KEY")) < 0x7fffffff /\
  0 <= JS.num (rng_value (Nat.iter 1 lcg_next (hashKey (str "MONO_CIPHER_KEY")))) <
       JS.den (rng_value (Nat.iter 1 lcg_next (hashKey (str "MONO_CIPHER_KEY")))) /\
  0 <= draw (Nat.iter 1 lcg_next (hashKey (str "MONO_CIPHER_KEY"))) 61 <= Z.of_nat 61.
Proof.
  split; [vm_compute; lia|].
  apply (rng_unit_interval_and_draw_in_bounds (str "MONO_CIPHER_KEY") 0 61).
  vm_compute; lia.
Defined.

(** C5 (the update is not the exact recurrence): the seed of the default key
    ["SKU_AI_KEY"] is 908860202; one call of the generator sets the state to
    764054784, while [(908860202 * 1103515245 + 12345) mod 2^31 = 764054811]:
    the product, about 1.0e18, exceeds 2^53 and is rounded as a double
    before the mask. *)
Theorem lcg_step_inexact_at_default_seed :
  hashKey (str "SKU_AI_KEY") = 908860202 /\
  lcg_next 908860202 = 764054784 /\
  (908860202 * 1103515245 + 12345) mod 2 ^ 31 = 764054811.
Proof. split; [|split]; vm_compute; reflexivity. Qed.

(** C6: [hashKey] is total: it accumulates
    [hash = ((hash << 5) - hash + charCode) mod 2^32] over the code units,
    reads the 32-bit result with wrap-around as a signed 32-bit integer and
    returns its absolute value; [hashKey("") = 0] and the result is a
    non-negative integer (at most 2^31). *)
Theorem hashKey_accumulation (key : list Z) :
  hashKey key = Z.abs (JS.toInt32 (spec_hash_acc key)) /\
  hashKey [] = 0 /\
  0 <= hashKey key <= 2 ^ 31.
Proof.
  split; [|split; [reflexivity | apply hashKey_range]].
  unfold hashKey, spec_hash_acc. change 0 with (JS.toInt32 0) at 1.
  by rewrite fold_hash_spec.
Qed.

(** C7: encryption and decryption preserve the length of every string, and
    map the empty string to itself. *)
Theorem length_preservation (key S : list Z) :
  length (encrypt (new_cipher key) S) = length S /\
  length (decrypt (new_cipher key) S) = length S /\
  encrypt (new_cipher key) [] = [] /\ decrypt (new_cipher key) [] = [].
Proof. unfold encrypt, decrypt. rewrite !length_map. auto. Qed.

(** C8: every code unit outside the alphabet is left unchanged by both
    encryption and decryption, at every position of every string; in
    particular ["!@#$%^&*()"] encrypts to itself under every key. *)
Theorem out_of_alphabet_identity (key : list Z) :
  (forall c, c ∉ chars ->
     subst (encryptTable (new_cipher key)) c = c /\
     subst (decryptTable (new_cipher key)) c = c) /\
  (forall (text : list Z) (k : nat) (c : Z), text !! k = Some c -> c ∉ chars ->
     encrypt (new_cipher key) text !! k = Some c /\
     decrypt (new_cipher key) text !! k = Some c) /\
  encrypt (new_cipher key) (str "!@#$%^&*()") = str "!@#$%^&*()".
Proof.
  split; [|split].
  - intros c Hc. by apply subst_out.
  - intros text k c Hk Hc. rewrite lookup_encrypt, lookup_decrypt, Hk. cbn [fmap option_fmap option_map].
    destruct (subst_out key c Hc) as [-> ->]. done.
  - apply encrypt_outside, special_chars_outside.
Qed.

(** C9: for every key, [getTableInfo()] reports 62 entries in each table and
    [isComplete = true]. *)
Theorem getTableInfo_complete (key : list Z) :
  encryptTableSize (getTableInfo (new_cipher key)) = 62 /\
  decryptTableSize (getTableInfo (new_cipher key)) = 62 /\
  isComplete (getTableInfo (new_cipher key)) = true.
Proof.
  unfold getTableInfo. cbn [encryptTableSize decryptTableSize isComplete].
  rewrite encryptTable_size, decryptTable_size. auto.
Qed.

(** C10: for every key, prefix and product id without ['@'],
    [decodeSKU(generateSKU(productId, prefix, key), key)] returns the
    prefix and the product id. *)
Theorem sku_roundtrip (productId prefix key : list Z) :
  at_sign ∉ prefix -> at_sign ∉ productId ->
  decodeSKU (generateSKU productId prefix key) key = Some (Decoded prefix productId).
Proof.
  intros Hp Hi. unfold decodeSKU, generateSKU. cbn [app].
  rewrite js_split_app by done.
  rewrite (js_split_no_sep at_sign _ (at_sign_not_in_encrypt key productId Hi)).
  by rewrite decrypt_encrypt.
Qed.

Lemma sku_roundtrip_witness :
  (at_sign ∉ str "si") /\ (at_sign ∉ str "abc123") /\
  decodeSKU (generateSKU (str "abc123") (str "si") (str "SKU_AI_KEY")) (str "SKU_AI_KEY") =
  Some (Decoded (str "si") (str "abc123")).
Proof.
  split; [apply (bool_decide_unpack _); vm_compute; exact I|].
  split; [apply (bool_decide_unpack _); vm_compute; exact I|].
  apply sku_roundtrip; apply (bool_decide_unpack _); vm_compute; exact I.
Defined.

(** * Further properties of the code *)

(** ** Helper lemmas *)
Module More.
Import JS Rounding Generator Shuffle Tables Codec.

(** While [state * 1103515245 + 12345] stays below 2^53 every double of the
    update is exact. *)
Lemma lcg_float_exact (s : Z) :
  0 <= s -> s * 1103515245 + 12345 < 2 ^ 53 -> lcg_float s = s * 1103515245 + 12345.
Proof.
  intros Hs0 Hb. assert (Hs : 0 <= s < 2 ^ 53) by lia. unfold lcg_float.
  destruct (of_int_exact s Hs) as [Hs1 Hs2].
  destruct (of_int_exact 1103515245 ltac:(lia)) as [Ha1 Ha2].
  destruct (of_int_exact 12345 ltac:(lia)) as [Hc1 Hc2].
  set (x := of_int s) in *. set (y := of_int 1103515245) in *.
  set (c := of_int 12345) in *.
  unfold mul. rewrite Hs1, Ha1.
  replace (s * den x * (1103515245 * den y)) with
    ((s * 1103515245) * (den x * den y)) by ring.
  set (m := round_q (s * 1103515245 * (den x * den y)) (den x * den y)).
  destruct (round_int (s * 1103515245) (den x * den y)) as
    [[Hlt Hm] | (Hge & _)]; [nia|nia| |lia].
  pose proof (round_q_frac_pos (s * 1103515245 * (den x * den y)) (den x * den y)
                ltac:(nia)) as [_ Hmd].
  fold m in Hm, Hmd. unfold add. rewrite Hm, Hc1.
  replace (s * 1103515245 * den m * den c + 12345 * den c * den m) with
    ((s * 1103515245 + 12345) * (den m * den c)) by ring.
  destruct (round_int (s * 1103515245 + 12345) (den m * den c)) as
    [[Hlt' He] | (Hge' & _)]; [nia|nia| |lia].
  unfold floor. rewrite He.
  apply Z.div_mul. pose proof (round_q_frac_pos
    ((s * 1103515245 + 12345) * (den m * den c)) (den m * den c) ltac:(nia)).
  lia.
Qed.

(** Past 2^53 the double [state * 1103515245 + 12345] is an even integer,
    and so is its low 31-bit part. *)
Lemma lcg_next_even (s : Z) :
  0 <= s <= 2 ^ 31 -> 2 ^ 53 <= s * 1103515245 + 12345 -> Z.even (lcg_next s) = true.
Proof.
  intros Hs Hb. rewrite lcg_next_float.
  destruct (lcg_float_cases s ltac:(lia)) as [[Hlt _] | [_ Hev]]; [lia|].
  apply Z.even_spec in Hev as [k Hk]. rewrite Hk.
  change (2 ^ 31) with (2 * 2 ^ 30). rewrite Z.mul_mod_distr_l by lia.
  apply Z.even_spec. eexists; reflexivity.
Qed.

Lemma js_split_nonempty (sep : Z) (l : list Z) : js_split sep l <> [].
Proof.
  destruct l as [|c l]; simpl; [done|].
  destruct (c =? sep); [done|]. by destruct (js_split sep l).
Qed.

Lemma decrypt_in_chars (key : list Z) (c : Z) :
  c ∈ chars -> subst (decryptTable (new_cipher key)) c ∈ chars.
Proof.
  intros Hc. unfold subst. by destruct (decrypt_in key c Hc) as (u & -> & ? & _).
Qed.

Lemma a_A_0_in_chars : 97 ∈ chars /\ 65 ∈ chars /\ 48 ∈ chars.
Proof. repeat split; apply (bool_decide_unpack _); vm_compute; exact I. Qed.

End More.

(** ** Properties *)
Import More.

(** [testConsistency(testText)] returns [true] for every key and every text. *)
Theorem testConsistency_true (key testText : list Z) :
  testConsistency (new_cipher key) testText = true.
Proof. unfold testConsistency. apply bool_decide_eq_true_2, decrypt_encrypt. Qed.

(** [getTableInfo().sampleMapping] always holds three defined, pairwise
    distinct alphabet characters (the images of ['a'], ['A'] and ['0']). *)
Theorem sampleMapping_defined (key : list Z) :
  exists va vA v0,
    sampleMapping (getTableInfo (new_cipher key)) = (Some va, Some vA, Some v0) /\
    va ∈ chars /\ vA ∈ chars /\ v0 ∈ chars /\ NoDup [va; vA; v0].
Proof.
  destruct a_A_0_in_chars as (Ha & HA & H0).
  destruct (encrypt_in key 97 Ha) as (va & Hva & Hvac & Hvad).
  destruct (encrypt_in key 65 HA) as (vA & HvA & HvAc & HvAd).
  destruct (encrypt_in key 48 H0) as (v0 & Hv0 & Hv0c & Hv0d).
  exists va, vA, v0. unfold getTableInfo. cbn [sampleMapping].
  rewrite Hva, HvA, Hv0. repeat split; try done.
  repeat constructor; rewrite ?not_elem_of_cons; repeat split;
    try apply not_elem_of_nil; intros Heq; subst; congruence.
Qed.

(** The two tables are inverse maps: [encryptTable[c] = v] exactly when
    [decryptTable[v] = c], for all code units [c] and [v]. *)
Theorem tables_inverse (key : list Z) (c v : Z) :
  encryptTable (new_cipher key) !! c = Some v <-> decryptTable (new_cipher key) !! v = Some c.
Proof.
  rewrite encryptTable_lookup, decryptTable_lookup.
  split; intros (k & ? & ?); eauto.
Qed.



(** [decodeSKU(sku)] fails (the code throws on [decrypt(undefined)])
    exactly when [sku] contains no ['@']. *)
Theorem decodeSKU_fails_iff_no_at (sku key : list Z) :
  decodeSKU sku key = None <-> at_sign ∉ sku.
Proof.
  unfold decodeSKU. split.
  - intros Hn Hin. apply list_elem_of_split_l in Hin as (p & r & -> & Hp).
    rewrite js_split_app in Hn by done.
    destruct (js_split at_sign r) eqn:E; [by apply js_split_nonempty in E|].
    discriminate.
  - intros Hn. by rewrite js_split_no_sep.
Qed.

(** [decodeSKU] keeps the text before the first ['@'] as the prefix and
    decrypts only the text between the first and the second ['@']; what
    follows a second ['@'] is dropped. *)
Theorem decodeSKU_second_at_dropped (p e r key : list Z) :
  at_sign ∉ p -> at_sign ∉ e ->
  decodeSKU (p ++ at_sign :: e ++ at_sign :: r) key =
  Some (Decoded p (decrypt (new_cipher key) e)).
Proof.
  intros Hp He. unfold decodeSKU.
  rewrite js_split_app by done. rewrite js_split_app by done. reflexivity.
Qed.

Lemma decodeSKU_second_at_dropped_witness :
  (at_sign ∉ str "si") /\ (at_sign ∉ str "T13BQ") /\
  decodeSKU (str "si" ++ at_sign :: str "T13BQ" ++ at_sign :: str "extra") (str "SKU_AI_KEY") =
  Some (Decoded (str "si") (decrypt (new_cipher (str "SKU_AI_KEY")) (str "T13BQ"))).
Proof.
  split; [apply (bool_decide_unpack _); vm_compute; exact I|].
  split; [apply (bool_decide_unpack _); vm_compute; exact I|].
  apply decodeSKU_second_at_dropped; apply (bool_decide_unpack _); vm_compute; exact I.
Defined.

(** With the prefix and the key fixed, [generateSKU] is injective in the
    product id: distinct product ids give distinct SKUs. *)
Theorem generateSKU_injective (id1 id2 prefix key : list Z) :
  generateSKU id1 prefix key = generateSKU id2 prefix key -> id1 = id2.
Proof.
  unfold generateSKU. intros H. apply app_inv_head in H. cbn [app] in H.
  injection H as H.
  rewrite <- (decrypt_encrypt key id1), <- (decrypt_encrypt key id2). by rewrite H.
Qed.

Lemma generateSKU_injective_witness :
  generateSKU (str "abc123") (str "si") (str "SKU_AI_KEY") =
  generateSKU (str "abc123") (str "si") (str "SKU_AI_KEY") /\ str "abc123" = str "abc123".
Proof.
  split; [reflexivity|].
  apply (generateSKU_injective _ _ (str "si") (str "SKU_AI_KEY")). reflexivity.
Defined.

(** Encryption and decryption map alphanumeric strings (over the 62-character
    alphabet) to alphanumeric strings. *)
Theorem alphanumeric_closed (key text : list Z) :
  Forall (fun c => c ∈ chars) text ->
  Forall (fun c => c ∈ chars) (encrypt (new_cipher key) text) /\
  Forall (fun c => c ∈ chars) (decrypt (new_cipher key) text).
Proof.
  unfold encrypt, decrypt. induction 1 as [|c text Hc _ [IH1 IH2]]; cbn [map].
  - split; constructor.
  - split; constructor; auto.
    + by apply subst_enc_in_chars.
    + by apply decrypt_in_chars.
Qed.

Lemma alphanumeric_closed_witness :
  Forall (fun c => c ∈ chars) (str "S5smas8TFSWpJUso6Ro3vK") /\
  Forall (fun c => c ∈ chars) (encrypt (new_cipher (str "SKU_AI_KEY")) (str "S5smas8TFSWpJUso6Ro3vK")) /\
  Forall (fun c => c ∈ chars) (decrypt (new_cipher (str "SKU_AI_KEY")) (str "S5smas8TFSWpJUso6Ro3vK")).
Proof.
  split; [apply (bool_decide_unpack _); vm_compute; exact I|].
  apply alphanumeric_closed. apply (bool_decide_unpack _); vm_compute; exact I.
Defined.

(** The one-call helpers of index.js round-trip: each call builds its own
    instance from the key, and [decrypt(encrypt(text, key), key) = text],
    [encrypt(decrypt(text, key), key) = text]; an instance from
    [createCipher(key)] decrypts what [encrypt(text, key)] produced. *)
Theorem index_helpers_roundtrip (text key : list Z) :
  Index.decrypt (Index.encrypt text key) key = text /\
  Index.encrypt (Index.decrypt text key) key = text /\
  decrypt (Index.createCipher key) (Index.encrypt text key) = text.
Proof.
  unfold Index.decrypt, Index.encrypt, Index.createCipher. cbv zeta.
  split; [|split]; [apply decrypt_encrypt | apply encrypt_decrypt | apply decrypt_encrypt].
Qed.

(** [deterministicShuffle(str, seed)] returns a permutation of [str] for
    every seed [hashKey] can produce and every string shorter than 2^53;
    strings of at most one code unit come back unchanged. *)
Theorem deterministicShuffle_permutes (s : list Z) (seed : Z) :
  0 <= seed <= 2 ^ 31 -> Z.of_nat (length s) < 2 ^ 53 ->
  deterministicShuffle s seed ≡ₚ s /\
  ((length s <= 1)%nat -> deterministicShuffle s seed = s).
Proof.
  intros Hseed Hl. split; [by apply deterministicShuffle_perm|].
  intros H1. destruct s as [|x [|y s]]; [done|done|]. simpl in H1. lia.
Qed.

Lemma deterministicShuffle_permutes_witness :
  (0 <= 42 <= 2 ^ 31 /\ Z.of_nat (length (str "hello")) < 2 ^ 53) /\
  deterministicShuffle (str "hello") 42 ≡ₚ str "hello" /\
  ((length (str "hello") <= 1)%nat -> deterministicShuffle (str "hello") 42 = str "hello").
Proof.
  split; [split; [lia | vm_compute; reflexivity]|].
  apply deterministicShuffle_permutes; [lia | vm_compute; reflexivity].
Defined.

(** For states up to 8162278, where [state * 1103515245 + 12345] stays below
    2^53, one step of the generator is the exact recurrence
    [(state * 1103515245 + 12345) mod 2^31]. *)
Theorem lcg_step_exact_small_state (s : Z) :
  0 <= s <= 8162278 -> lcg_next s = (s * 1103515245 + 12345) mod 2 ^ 31.
Proof. intros Hs. rewrite lcg_next_float, lcg_float_exact; [done|lia|lia]. Qed.

Lemma lcg_step_exact_small_state_witness :
  0 <= 12345 <= 8162278 /\ lcg_next 12345 = (12345 * 1103515245 + 12345) mod 2 ^ 31.
Proof. split; [lia|]. apply lcg_step_exact_small_state. lia. Defined.

(** For states from 8162279 to 2^31 the product [state * 1103515245] is
    rounded to an even double, and the next state is always even. *)
Theorem lcg_step_even_large_state (s : Z) :
  8162278 < s <= 2 ^ 31 -> Z.even (lcg_next s) = true.
Proof. intros Hs. apply lcg_next_even; lia. Qed.

Lemma lcg_step_even_large_state_witness :
  8162278 < 908860202 <= 2 ^ 31 /\ Z.even (lcg_next 908860202) = true.
Proof. split; [lia|]. apply lcg_step_even_large_state. lia. Defined.
